(** * Utility: string helpers and numeric address parsing

    A shallow embedding of [Utility.cpp] (class [Utility]) and the
    properties of its member functions.

    - [std::string] is a sequence of bytes: [list ascii].
    - [std::size_t] positions are [nat]; [std::string::npos] is [None].
    - A call either returns, throws, runs into behaviour the language leaves
      undefined, or is still looping when the fuel given to its loop is
      used up: the four constructors of [outcome]. *)

From Stdlib Require Import Ascii String Arith ZArith Lia Bool List.
From Stdlib Require Strings.Byte.
Import ListNotations.

(** ** Strings *)

Definition std_string : Type := list ascii.

(** A string literal of the source. *)
Definition lit (s : string) : std_string := list_ascii_of_string s.

Arguments lit s%_string.

(** ** Outcomes of a call *)

Inductive exception : Type :=
| out_of_range
| runtime_error (what : std_string).

Inductive outcome (A : Type) : Type :=
| Returns (a : A)
| Throws (e : exception)
| Undefined
| OutOfFuel.

Arguments Returns {A} a.
Arguments Throws {A} e.
Arguments Undefined {A}.
Arguments OutOfFuel {A}.

Definition bind {A B : Type} (m : outcome A) (k : A -> outcome B) : outcome B :=
  match m with
  | Returns a => k a
  | Throws e => Throws e
  | Undefined => Undefined
  | OutOfFuel => OutOfFuel
  end.

Notation "x <- m ;; k" := (bind m (fun x => k))
  (at level 61, m at next level, right associativity).

(** ** The members of [std::string] the source calls *)

(** [starts_with d s]: the characters of [d] are the first characters of [s]
    (the comparison [find] makes at one position). *)
Fixpoint starts_with (d s : std_string) : bool :=
  match d, s with
  | [], _ => true
  | _ :: _, [] => false
  | a :: d', b :: s' => Ascii.eqb a b && starts_with d' s'
  end.

(** [find_from d s i]: [s] is the part of the string from index [i] on; the
    lowest index at which [d] occurs. *)
Fixpoint find_from (d s : std_string) (i : nat) : option nat :=
  if starts_with d s then Some i
  else match s with
       | [] => None
       | _ :: s' => find_from d s' (S i)
       end.

(** [s.find(d, pos)]: the lowest [xpos >= pos] with [xpos + d.size() <= s.size()]
    at which [d] occurs in [s]; [npos] when there is none (in particular when
    [pos > s.size()]). *)
Definition find (s d : std_string) (pos : nat) : option nat :=
  if pos <=? length s then find_from d (skipn pos s) pos else None.

(** [s.substr(pos, n)]: throws [std::out_of_range] when [pos > s.size()]. *)
Definition substr (s : std_string) (pos n : nat) : outcome std_string :=
  if pos <=? length s then Returns (firstn n (skipn pos s))
  else Throws out_of_range.

(** [s.substr(pos)]: the count defaults to [npos], the rest of the string. *)
Definition substr_npos (s : std_string) (pos : nat) : outcome std_string :=
  if pos <=? length s then Returns (skipn pos s)
  else Throws out_of_range.

(** [s.replace(pos, len, str)]: the characters [pos, pos + min(len, size - pos))
    give way to [str]; throws [std::out_of_range] when [pos > s.size()]. *)
Definition string_replace (s : std_string) (pos len : nat) (str : std_string)
  : outcome std_string :=
  if pos <=? length s then Returns (firstn pos s ++ str ++ skipn (pos + len) s)
  else Throws out_of_range.

(** [s.erase(first, last)] on iterators, as indices into [s]. *)
Definition erase (s : std_string) (first last : nat) : std_string :=
  firstn first s ++ skipn last s.

(** [std::find_if(first, last, p)]: the index of the first element that
    satisfies [p], the length of the range when there is none. *)
Fixpoint find_if (p : ascii -> bool) (s : std_string) : nat :=
  match s with
  | [] => 0
  | c :: s' => if p c then 0 else S (find_if p s')
  end.

(** ** <cctype> in the "C" locale (the program never calls [setlocale])

    A byte from 0x80 on is neither graphic nor an upper-case letter. *)

(** [isgraph]: the characters 0x21 .. 0x7E. *)
Definition isgraph (c : ascii) : bool :=
  let n := nat_of_ascii c in (33 <=? n) && (n <=? 126).

(** [tolower]: 'A' .. 'Z' are moved to 'a' .. 'z', every other byte is kept. *)
Definition tolower (c : ascii) : ascii :=
  let n := nat_of_ascii c in
  if (65 <=? n) && (n <=? 90) then ascii_of_nat (n + 32) else c.

(** ** <climits>, <cstring>, <sys/socket.h>, <netdb.h>

    The values below are those of Linux with glibc on x86-64; the source
    takes them from the system headers. *)

Definition INT_MAX : Z := 2147483647.

Definition AF_UNSPEC : Z := 0.
Definition AF_UNIX : Z := 1.
Definition AF_INET : Z := 2.
Definition AF_INET6 : Z := 10.
Definition AI_NUMERICHOST : Z := 4.
Definition EAI_NONAME : Z := -2.

(** [struct addrinfo]; the [ai_next] chain is the list the resolver returns,
    [nullptr] the empty list.  [ai_addr] holds the bytes the pointer refers to. *)
Record addrinfo : Type := {
  ai_flags : Z;
  ai_family : Z;
  ai_addrlen : nat;
  ai_addr : list Byte.byte
}.

(** [struct sockaddr_storage]: [sizeof_sockaddr_storage] bytes, of which the
    first two are [ss_family] (an [unsigned short], low byte first). *)
Definition sockaddr_storage : Type := list Byte.byte.

Definition sizeof_sockaddr_storage : nat := 128.

Definition sa_family (a : list Byte.byte) : option Z :=
  match a with
  | lo :: hi :: _ => Some (Z.of_nat (Byte.to_nat lo) + 256 * Z.of_nat (Byte.to_nat hi))%Z
  | _ => None
  end.

Definition ss_family (a : sockaddr_storage) : option Z := sa_family a.

(** [memcpy(dst, src, n)] into an object of [length dst] bytes from one of
    [length src] bytes: undefined when either is shorter than [n]. *)
Definition memcpy (dst src : list Byte.byte) (n : nat) : outcome (list Byte.byte) :=
  if (n <=? length dst) && (n <=? length src)
  then Returns (firstn n src ++ skipn n dst)
  else Undefined.

(** [s.c_str()] as a C function reads it: up to the first NUL. *)
Fixpoint c_str (s : std_string) : std_string :=
  match s with
  | [] => []
  | c :: s' => if Ascii.eqb c zero then [] else c :: c_str s'
  end.

(** [getaddrinfo(node, nullptr, &hints, &res)]: the return code and the list
    left in [res]. *)
Definition resolver : Type := std_string -> addrinfo -> Z * list addrinfo.

Module Utility.

(** *** explode *)

(** The [for] loop of [explode]: [cpos = s.find(d, lpos)] is the loop test,
    the body pushes [s.substr(lpos, cpos - lpos)] and the step sets
    [lpos = cpos + d.length()]; after the loop [s.substr(lpos)] is pushed.
    One unit of fuel is one iteration. *)
Fixpoint explode_loop (fuel : nat) (s d : std_string) (lpos : nat)
    (result : list std_string) : outcome (list std_string) :=
  match find s d lpos with
  | None =>
      piece <- substr_npos s lpos ;;
      Returns (result ++ [piece])
  | Some cpos =>
      match fuel with
      | 0 => OutOfFuel
      | S fuel' =>
          piece <- substr s lpos (cpos - lpos) ;;
          explode_loop fuel' s d (cpos + length d) (result ++ [piece])
      end
  end.

(** [Utility::explode(s, d)].  With a non-empty delimiter every iteration moves
    [lpos] forward by at least one character, so [s.length()] iterations are
    enough ([explode_loop_fuel]).  With an empty one the loop test never
    fails: the loop is still running when the fuel is used up
    ([explode_empty_delimiter_diverges]); the source goes on pushing empty
    strings until an allocation fails, which is outside this model. *)
Definition explode (s d : std_string) : outcome (list std_string) :=
  explode_loop (length s) s d 0 [].

(** *** implode *)

(** The range-[for] of [implode], over the elements still to visit. *)
Fixpoint implode_loop (v : list std_string) (d result : std_string) : std_string :=
  match v with
  | [] => result
  | s :: v' =>
      let result := if 0 <? length result then result ++ d else result in
      implode_loop v' d (result ++ s)
  end.

(** [Utility::implode(v, d)]. *)
Definition implode (v : list std_string) (d : std_string) : std_string :=
  implode_loop v d [].

(** *** ltrim, rtrim, trim

    The functions change the string they are given and return a reference
    to it: the model maps the old value to the new one. *)

(** [Utility::ltrim(s)]: [s.erase(s.begin(), find_if(s.begin(), s.end(), isgraph))]. *)
Definition ltrim (s : std_string) : std_string :=
  erase s 0 (find_if isgraph s).

(** [Utility::rtrim(s)]: the reverse iterator [find_if] stops at has the base
    [s.size() - k], [k] its distance from [s.rbegin()]. *)
Definition rtrim (s : std_string) : std_string :=
  erase s (length s - find_if isgraph (rev s)) (length s).

(** [Utility::trim(s)]. *)
Definition trim (s : std_string) : std_string :=
  ltrim (rtrim s).

(** *** repeat *)

(** The [for] loop of [repeat], [i] and [n] of type [int]; [i++] beyond
    [INT_MAX] is undefined. *)
Fixpoint repeat_loop (fuel : nat) (s : std_string) (n i : Z)
    (result : std_string) : outcome std_string :=
  if (i <? n)%Z then
    match fuel with
    | 0 => OutOfFuel
    | S fuel' =>
        let result := result ++ s in
        if (i + 1 <=? INT_MAX)%Z
        then repeat_loop fuel' s n (i + 1)%Z result
        else Undefined
    end
  else Returns result.

(** [Utility::repeat(s, n)]: the loop runs [max(n, 0)] times. *)
Definition repeat (s : std_string) (n : Z) : outcome std_string :=
  repeat_loop (Z.to_nat n) s n 0%Z [].

(** *** replace *)

(** The [for] loop of [replace]: [offset] is the loop variable the test reads,
    the body is [result.replace(offset, search.length(), replace)], the step
    sets [search_pos = offset + replace.length()] and searches again from
    there.  Its init statement declares [search_pos] and [offset] in one
    declaration; both are read as [size_t], [offset] starting at
    [result.find(search)]. *)
Fixpoint replace_loop (fuel : nat) (search repl result : std_string)
    (offset : option nat) : outcome std_string :=
  match offset with
  | None => Returns result
  | Some off =>
      match fuel with
      | 0 => OutOfFuel
      | S fuel' =>
          result' <- string_replace result off (length search) repl ;;
          let search_pos := off + length repl in
          replace_loop fuel' search repl result' (find result' search search_pos)
      end
  end.

(** [Utility::replace(search, replace, subject)]; the loop is entered only
    under [search.length() > 0]. *)
Definition replace (search repl subject : std_string) : outcome std_string :=
  let result := subject in
  if 0 <? length search
  then replace_loop (length subject) search repl result (find result search 0)
  else Returns result.

(** *** strtolower *)

(** [Utility::strtolower(s)]: [std::transform] over a copy of [s]. *)
Definition strtolower (s : std_string) : std_string :=
  map tolower s.

(** *** parse_addr *)

Definition parse_error : exception :=
  runtime_error (lit "Could not parse the provided address.").

(** [hints]: zero-initialised, then [ai_family = AF_UNSPEC] and
    [ai_flags = AI_NUMERICHOST]. *)
Definition numeric_hints : addrinfo :=
  {| ai_flags := AI_NUMERICHOST; ai_family := AF_UNSPEC;
     ai_addrlen := 0; ai_addr := [] |}.

(** [Utility::parse_addr(addr)] over the resolver [getaddrinfo].  The three
    tests of the [if] are made in the order of the source. *)
Definition parse_addr (getaddrinfo : resolver) (addr : std_string)
  : outcome sockaddr_storage :=
  let address := List.repeat Byte.x00 sizeof_sockaddr_storage in
  let hints := numeric_hints in
  let '(rc, res) := getaddrinfo (c_str addr) hints in
  if negb (rc =? 0)%Z then Throws parse_error
  else match res with
       | [] => Throws parse_error
       | first :: _ =>
           if negb (ai_family first =? AF_INET)%Z
              && negb (ai_family first =? AF_INET6)%Z
           then Throws parse_error
           else memcpy address (ai_addr first) (ai_addrlen first)
       end.

End Utility.

(** ** A resolver to run [parse_addr] on

    It knows the two loopback literals, answers ["unix"] with a candidate of
    a family that is neither IPv4 nor IPv6, and fails on everything else. *)

Definition sockaddr_in_loopback : list Byte.byte :=
  [Byte.x02; Byte.x00; Byte.x00; Byte.x00; Byte.x7f; Byte.x00; Byte.x00; Byte.x01]
  ++ List.repeat Byte.x00 8.

Definition sockaddr_in6_loopback : list Byte.byte :=
  [Byte.x0a; Byte.x00; Byte.x00; Byte.x00; Byte.x00; Byte.x00; Byte.x00; Byte.x00]
  ++ List.repeat Byte.x00 15 ++ [Byte.x01]
  ++ List.repeat Byte.x00 4.

Definition loopback_resolver : resolver := fun node hints =>
  let name := string_of_list_ascii node in
  if String.eqb name "127.0.0.1" then
    (0%Z, [ {| ai_flags := ai_flags hints; ai_family := AF_INET;
               ai_addrlen := 16; ai_addr := sockaddr_in_loopback |} ])
  else if String.eqb name "::1" then
    (0%Z, [ {| ai_flags := ai_flags hints; ai_family := AF_INET6;
               ai_addrlen := 28; ai_addr := sockaddr_in6_loopback |} ])
  else if String.eqb name "unix" then
    (0%Z, [ {| ai_flags := ai_flags hints; ai_family := AF_UNIX;
               ai_addrlen := 2; ai_addr := [Byte.x01; Byte.x00] |} ])
  else (EAI_NONAME, []).

(** ** What the specification asks for *)

(** [join_spec d parts]: the elements of [parts] in order, [d] between every
    two consecutive ones. *)
Fixpoint join_spec (d : std_string) (parts : list std_string) : std_string :=
  match parts with
  | [] => []
  | p :: rest =>
      match rest with
      | [] => p
      | _ :: _ => p ++ d ++ join_spec d rest
      end
  end.

(** [occurs d s]: [d] is a substring of [s]. *)
Definition occurs (d s : std_string) : Prop :=
  exists pre post, s = pre ++ d ++ post.

(** [clean_cut d p]: in [p ++ d] the delimiter does not occur before the end
    of [p]. *)
Definition clean_cut (d p : std_string) : Prop :=
  forall pre post, p ++ d = pre ++ d ++ post -> length p <= length pre.

(** [ends_graph s]: [s] is empty or its last character is a graphic one. *)
Definition ends_graph (s : std_string) : Prop :=
  rev s = [] \/ exists c t, rev s = c :: t /\ isgraph c = true.

(** [final_occurrence d s k]: [d] occurs in [s] at index [k] and at no
    index behind [k]. *)
Definition final_occurrence (d s : std_string) (k : nat) : Prop :=
  starts_with d (skipn k s) = true /\
  k + length d <= length s /\
  forall j, k < j -> j + length d <= length s ->
            starts_with d (skipn j s) = false.

(** [drop_leading_empty v]: [v] without the empty strings it starts with. *)
Fixpoint drop_leading_empty (v : list std_string) : list std_string :=
  match v with
  | [] :: v' => drop_leading_empty v'
  | _ => v
  end.


(** [conforming getaddrinfo]: what POSIX promises of a successful call: the
    address of a candidate is [ai_addrlen] bytes long and its family field
    is the candidate's [ai_family]. *)
Definition conforming (getaddrinfo : resolver) : Prop :=
  forall node hints rc first rest,
    getaddrinfo node hints = (rc, first :: rest) ->
    rc = 0%Z ->
    length (ai_addr first) = ai_addrlen first /\
    sa_family (ai_addr first) = Some (ai_family first).

(** [carries e text]: the message of [e] holds [text]. *)
Definition carries (e : exception) (text : std_string) : bool :=
  match e with
  | out_of_range => false
  | runtime_error what =>
      match find what text 0 with Some _ => true | None => false end
  end.

(** [Split d s pieces]: [pieces] are the substrings of [s] between the
    occurrences of [d] a left-to-right scan meets, each occurrence the
    leftmost one in what is left of [s] after the one before: a string
    without [d] is one piece; otherwise the first piece is followed by [d],
    no [d] starts before its end, and the text behind that [d] is cut in
    the same way. *)
Inductive Split (d : std_string) : std_string -> list std_string -> Prop :=
| Split_last (s : std_string) :
    ~ occurs d s ->
    Split d s [s]
| Split_cut (pre post : std_string) (rest : list std_string) :
    clean_cut d pre ->
    Split d post rest ->
    Split d (pre ++ d ++ post) (pre :: rest).

(** [ReplacedAll search repl s r]: [r] is [s] with the occurrences of [search]
    a left-to-right scan meets replaced by [repl]; the scan goes on behind
    the occurrence it replaced, in the text of [s]. *)
Inductive ReplacedAll (search repl : std_string) : std_string -> std_string -> Prop :=
| Replaced_none (s : std_string) :
    ~ occurs search s ->
    ReplacedAll search repl s s
| Replaced_next (pre post post' : std_string) :
    clean_cut search pre ->
    ReplacedAll search repl post post' ->
    ReplacedAll search repl (pre ++ search ++ post) (pre ++ repl ++ post').

(** * Facts about [find] *)

Section FindFacts.

Implicit Types d s pre post : std_string.

Lemma starts_with_iff d s :
  starts_with d s = true <-> exists t, s = d ++ t.
Proof.
  revert s; induction d as [|a d IH]; intros s; simpl.
  - split; [intros _; exists s; reflexivity | reflexivity].
  - destruct s as [|b s].
    + split; [discriminate | intros [t Ht]; discriminate].
    + rewrite andb_true_iff, Ascii.eqb_eq, IH. split.
      * intros [-> [t ->]]. exists t; reflexivity.
      * intros [t Ht]. injection Ht as -> ->. split; [reflexivity | exists t; reflexivity].
Qed.

Lemma starts_with_app d t : starts_with d (d ++ t) = true.
Proof. apply starts_with_iff. exists t; reflexivity. Qed.

Lemma starts_with_length d s :
  starts_with d s = true -> length d <= length s.
Proof.
  intros H. apply starts_with_iff in H as [t ->]. rewrite length_app. lia.
Qed.

Lemma starts_with_app_l d x y :
  length d <= length x -> starts_with d (x ++ y) = starts_with d x.
Proof.
  revert x; induction d as [|a d IH]; intros x Hlen; simpl.
  - reflexivity.
  - destruct x as [|b x]; simpl in *; [lia|].
    rewrite IH by lia. reflexivity.
Qed.

Lemma starts_with_nil d : starts_with d [] = true -> d = [].
Proof. destruct d; [reflexivity | discriminate]. Qed.

Lemma find_from_shift d s i :
  find_from d s i = option_map (Nat.add i) (find_from d s 0).
Proof.
  revert i; induction s as [|c s IH]; intros i; simpl.
  - destruct (starts_with d []); simpl; [rewrite Nat.add_0_r|]; reflexivity.
  - destruct (starts_with d (c :: s)); simpl.
    + rewrite Nat.add_0_r; reflexivity.
    + rewrite (IH (S i)), (IH 1).
      destruct (find_from d s 0); simpl; [f_equal; lia | reflexivity].
Qed.

Lemma find_0 s d : find s d 0 = find_from d s 0.
Proof. reflexivity. Qed.

Lemma find_skipn s d pos :
  pos <= length s ->
  find s d pos = option_map (Nat.add pos) (find (skipn pos s) d 0).
Proof.
  intros H. unfold find. apply Nat.leb_le in H. rewrite H. simpl.
  apply find_from_shift.
Qed.

Lemma find_beyond s d pos : length s < pos -> find s d pos = None.
Proof.
  intros H. unfold find. apply Nat.leb_gt in H. rewrite H. reflexivity.
Qed.

(** [find] returns the first position at which [d] starts. *)
Lemma find_Some_iff s d j :
  find s d 0 = Some j <->
  starts_with d (skipn j s) = true /\
  forall k, k < j -> starts_with d (skipn k s) = false.
Proof.
  rewrite find_0. revert j; induction s as [|c s IH]; intros j.
  - simpl. rewrite skipn_nil. destruct (starts_with d []) eqn:E.
    + split.
      * intros [= <-]. split; [reflexivity | intros k Hk; lia].
      * intros [_ H]. destruct j; [reflexivity|].
        specialize (H 0 ltac:(lia)). simpl in H. congruence.
    + split; [discriminate | intros [H _]; discriminate].
  - simpl find_from. destruct (starts_with d (c :: s)) eqn:E.
    + split.
      * intros [= <-]. split; [exact E | intros k Hk; lia].
      * intros [_ H]. destruct j; [reflexivity|].
        specialize (H 0 ltac:(lia)). simpl in H. congruence.
    + rewrite find_from_shift. destruct j as [|j].
      * split.
        -- destruct (find_from d s 0); discriminate.
        -- intros [H _]. simpl in H. congruence.
      * specialize (IH j). split.
        -- intros H. destruct (find_from d s 0) as [j'|]; [|discriminate].
           simpl in H. injection H as <-.
           destruct (proj1 IH eq_refl) as [H1 H2].
           split; [exact H1|]. intros [|k] Hk; [exact E|]. apply H2. lia.
        -- intros [H1 H2]. simpl in H1. rewrite (proj2 IH); [reflexivity|].
           split; [exact H1|]. intros k Hk. apply (H2 (S k)). lia.
Qed.

Lemma find_None_iff s d :
  find s d 0 = None <-> forall k, starts_with d (skipn k s) = false.
Proof.
  rewrite find_0. induction s as [|c s IH].
  - simpl. destruct (starts_with d []) eqn:E.
    + split; [discriminate|]. intros H. specialize (H 0). simpl in H. congruence.
    + split; [|reflexivity]. intros _ k. rewrite skipn_nil. exact E.
  - simpl find_from. destruct (starts_with d (c :: s)) eqn:E.
    + split; [discriminate|]. intros H. specialize (H 0). simpl in H. congruence.
    + rewrite find_from_shift. split.
      * intros H. destruct (find_from d s 0); [discriminate|].
        intros [|k]; [exact E|]. simpl. apply (proj1 IH eq_refl).
      * intros H. rewrite (proj2 IH); [reflexivity|].
        intros k. apply (H (S k)).
Qed.

Lemma find_Some_bound s d j :
  find s d 0 = Some j -> j + length d <= length s.
Proof.
  intros H. apply find_Some_iff in H as [H H0].
  destruct (Nat.le_gt_cases j (length s)) as [Hj|Hj].
  - apply starts_with_length in H. rewrite length_skipn in H. lia.
  - rewrite skipn_all2 in H by lia. apply starts_with_nil in H. subst d.
    specialize (H0 (length s) Hj). rewrite skipn_all in H0. discriminate.
Qed.

End FindFacts.

(** * Cutting a string at the first occurrence *)

Section CutFacts.

Implicit Types d s pre post : std_string.

Lemma find_Some_decomp s d j :
  find s d 0 = Some j ->
  s = firstn j s ++ d ++ skipn (j + length d) s.
Proof.
  intros H. apply find_Some_iff in H as [H _].
  apply starts_with_iff in H as [t Ht].
  rewrite <- (firstn_skipn j s) at 1. f_equal.
  rewrite Nat.add_comm, <- skipn_skipn, Ht.
  rewrite skipn_app, skipn_all, Nat.sub_diag. reflexivity.
Qed.

Lemma find_Some_length_firstn s d j :
  find s d 0 = Some j -> length (firstn j s) = j.
Proof.
  intros H. apply find_Some_bound in H. apply firstn_length_le. lia.
Qed.

Lemma app_eq_length (a b a' b' : std_string) :
  length a = length a' -> a ++ b = a' ++ b' -> a = a' /\ b = b'.
Proof.
  revert a'; induction a as [|x a IH]; intros [|x' a'] L E;
    simpl in *; try discriminate.
  - split; [reflexivity | exact E].
  - injection E as -> E. injection L as L.
    destruct (IH _ L E) as [-> ->]. split; reflexivity.
Qed.

Lemma skipn_app_lt (k : nat) pre post :
  k <= length pre -> skipn k (pre ++ post) = skipn k pre ++ post.
Proof.
  intros H. rewrite skipn_app.
  replace (k - length pre) with 0 by lia. reflexivity.
Qed.

Lemma starts_with_cut d pre post :
  starts_with d (skipn (length pre) (pre ++ d ++ post)) = true.
Proof.
  rewrite skipn_app_lt, skipn_all by lia. exact (starts_with_app d post).
Qed.

Lemma starts_with_cut_end d pre :
  starts_with d (skipn (length pre) (pre ++ d)) = true.
Proof.
  rewrite <- (app_nil_r d) at 2. apply starts_with_cut.
Qed.

(** Whether [d] first occurs in [pre ++ d ++ post] right behind [pre] does
    not depend on [post]. *)
Lemma find_cut_app d pre post :
  find (pre ++ d ++ post) d 0 = Some (length pre) <->
  find (pre ++ d) d 0 = Some (length pre).
Proof.
  rewrite !find_Some_iff.
  assert (E : forall k, k < length pre ->
            starts_with d (skipn k (pre ++ d ++ post))
            = starts_with d (skipn k (pre ++ d))).
  { intros k Hk. rewrite !skipn_app_lt by lia.
    rewrite app_assoc. apply starts_with_app_l. rewrite length_app. lia. }
  split; intros [H1 H2]; split.
  - apply starts_with_cut_end.
  - intros k Hk. rewrite <- E by exact Hk. apply H2, Hk.
  - apply starts_with_cut.
  - intros k Hk. rewrite E by exact Hk. apply H2, Hk.
Qed.

(** A piece that is cut off at its end holds no delimiter. *)
Lemma find_cut_free d pre :
  d <> [] ->
  find (pre ++ d) d 0 = Some (length pre) ->
  find pre d 0 = None.
Proof.
  intros Hd H. apply find_Some_iff in H as [_ H].
  apply find_None_iff. intros k.
  destruct (Nat.lt_ge_cases k (length pre)) as [Hk|Hk].
  - specialize (H k Hk). rewrite skipn_app_lt in H by lia.
    destruct (starts_with d (skipn k pre)) eqn:E; [|reflexivity].
    apply starts_with_iff in E as [t Ht]. rewrite Ht, <- app_assoc in H.
    rewrite starts_with_app in H. discriminate.
  - rewrite skipn_all2 by lia.
    destruct (starts_with d []) eqn:E; [|reflexivity].
    apply starts_with_nil in E. contradiction.
Qed.

Lemma find_None_free d s pre post :
  find s d 0 = None -> s <> pre ++ d ++ post.
Proof.
  intros H ->. rewrite find_None_iff in H.
  specialize (H (length pre)).
  rewrite starts_with_cut in H. discriminate.
Qed.

Lemma find_None_occurs s d :
  find s d 0 = None <-> ~ occurs d s.
Proof.
  split.
  - intros H (pre & post & E). exact (find_None_free d s pre post H E).
  - intros H. destruct (find s d 0) as [j|] eqn:E; [|reflexivity].
    exfalso. apply H. exists (firstn j s), (skipn (j + length d) s).
    apply find_Some_decomp, E.
Qed.

(** [clean_cut] is what [find] decides. *)
Lemma clean_cut_find d p :
  clean_cut d p <-> find (p ++ d) d 0 = Some (length p).
Proof.
  split.
  - intros H. apply find_Some_iff. split; [apply starts_with_cut_end|].
    intros k Hk. destruct (starts_with d (skipn k (p ++ d))) eqn:E; [|reflexivity].
    apply starts_with_iff in E as [t Ht].
    specialize (H (firstn k (p ++ d)) t).
    rewrite <- Ht, firstn_skipn in H. specialize (H eq_refl).
    rewrite firstn_length_le in H by (rewrite length_app; lia). lia.
  - intros H pre post E. apply find_Some_iff in H as [_ H].
    destruct (Nat.le_gt_cases (length p) (length pre)) as [L|L]; [exact L|].
    specialize (H (length pre) L). rewrite E, starts_with_cut in H. discriminate.
Qed.

Lemma clean_cut_find_app d pre post :
  clean_cut d pre <-> find (pre ++ d ++ post) d 0 = Some (length pre).
Proof. rewrite clean_cut_find. symmetry. apply find_cut_app. Qed.

Lemma clean_cut_free d pre : d <> [] -> clean_cut d pre -> ~ occurs d pre.
Proof.
  intros Hd H. apply find_None_occurs, find_cut_free; [exact Hd|].
  apply clean_cut_find, H.
Qed.

Lemma occurs_cut d pre post : occurs d (pre ++ d ++ post).
Proof. exists pre, post. reflexivity. Qed.

End CutFacts.

(** * [Split] and [join_spec] *)

Section SplitFacts.

Implicit Types d s pre post : std_string.
Implicit Types pieces parts : list std_string.

Lemma Split_index d s j rest :
  find s d 0 = Some j ->
  Split d (skipn (j + length d) s) rest ->
  Split d s (firstn j s :: rest).
Proof.
  intros Hf Hs.
  pose proof (find_Some_decomp _ _ _ Hf) as E.
  pose proof (find_Some_length_firstn _ _ _ Hf) as L.
  rewrite E at 1. apply Split_cut; [|exact Hs].
  apply (clean_cut_find_app d _ (skipn (j + length d) s)).
  rewrite <- E, L. exact Hf.
Qed.

Lemma Split_nonempty d s pieces : Split d s pieces -> pieces <> [].
Proof. intros H; destruct H; discriminate. Qed.

Lemma Split_functional d s pieces1 pieces2 :
  Split d s pieces1 -> Split d s pieces2 -> pieces1 = pieces2.
Proof.
  intros H1. revert pieces2.
  induction H1 as [s Hs|pre post rest Hf _ IH]; intros pieces2 H2.
  - inversion H2 as [s' Hs'|pre' post' rest' Hf' Hr' E]; subst; [reflexivity|].
    exfalso. apply Hs, occurs_cut.
  - inversion H2 as [s' Hs'|pre' post' rest' Hf' Hr' E]; subst.
    + exfalso. apply Hs', occurs_cut.
    + apply (clean_cut_find_app d pre post) in Hf.
      apply (clean_cut_find_app d pre' post') in Hf'.
      rewrite E, Hf in Hf'. injection Hf' as L.
      apply app_eq_length in E as [-> E]; [|symmetry; exact L].
      apply app_inv_head in E. subst post'.
      f_equal. apply IH, Hr'.
Qed.

(** The pieces, joined by the delimiter, are the string that was cut. *)
Lemma Split_join d s pieces : Split d s pieces -> join_spec d pieces = s.
Proof.
  induction 1 as [s Hs|pre post rest Hf Hr IH].
  - reflexivity.
  - simpl. destruct rest as [|q rest].
    + exfalso. exact (Split_nonempty _ _ _ Hr eq_refl).
    + rewrite IH. reflexivity.
Qed.

(** No piece holds a delimiter. *)
Lemma Split_free d s pieces :
  d <> [] -> Split d s pieces -> Forall (fun p => ~ occurs d p) pieces.
Proof.
  intros Hd. induction 1 as [s Hs|pre post rest Hf Hr IH].
  - constructor; [exact Hs | constructor].
  - constructor; [|exact IH].
    apply clean_cut_free; [exact Hd | exact Hf].
Qed.

(** The last piece is what follows the last delimiter that was cut out. *)
Lemma Split_last_piece d s pieces :
  Split d s pieces ->
  exists init last,
    pieces = init ++ [last] /\
    s = flat_map (fun p => p ++ d) init ++ last /\
    ~ occurs d last.
Proof.
  induction 1 as [s Hs|pre post rest Hf Hr IH].
  - exists [], s. repeat split; [exact Hs].
  - destruct IH as (init & last & -> & E & Hl).
    exists (pre :: init), last. repeat split; [|exact Hl].
    simpl. rewrite <- !app_assoc. rewrite <- E. reflexivity.
Qed.

Lemma Split_of_join d parts :
  parts <> [] ->
  Forall (clean_cut d) (removelast parts) ->
  ~ occurs d (last parts []) ->
  Split d (join_spec d parts) parts.
Proof.
  induction parts as [|p parts IH]; intros Hne Hc Hl; [contradiction|].
  destruct parts as [|q parts].
  - simpl in *. apply Split_last, Hl.
  - change (join_spec d (p :: q :: parts)) with (p ++ d ++ join_spec d (q :: parts)).
    change (removelast (p :: q :: parts)) with (p :: removelast (q :: parts)) in Hc.
    inversion Hc as [|? ? Hp Hc']; subst.
    apply Split_cut.
    + exact Hp.
    + apply IH; [discriminate | exact Hc' | exact Hl].
Qed.

End SplitFacts.

(** * explode *)

Section Explode.

Import Utility.

Implicit Types d s : std_string.
Implicit Types result pieces : list std_string.

Lemma substr_in_range s pos n :
  pos <= length s -> substr s pos n = Returns (firstn n (skipn pos s)).
Proof.
  intros H. unfold substr. apply Nat.leb_le in H. rewrite H. reflexivity.
Qed.

Lemma substr_npos_in_range s pos :
  pos <= length s -> substr_npos s pos = Returns (skipn pos s).
Proof.
  intros H. unfold substr_npos. apply Nat.leb_le in H. rewrite H. reflexivity.
Qed.

(** The loop, started at [lpos] with enough fuel for the characters that
    are left, appends the pieces of the rest of the string. *)
Lemma explode_loop_fuel d s :
  d <> [] ->
  forall fuel lpos result,
    lpos <= length s ->
    length s - lpos <= fuel ->
    exists pieces,
      Split d (skipn lpos s) pieces /\
      explode_loop fuel s d lpos result = Returns (result ++ pieces).
Proof.
  intros Hd. assert (Ld : 0 < length d) by (destruct d; simpl; [contradiction | lia]).
  induction fuel as [|fuel IH]; intros lpos result Hl Hf.
  - exists [skipn lpos s]. assert (E : lpos = length s) by lia.
    assert (F : find s d lpos = None).
    { rewrite find_skipn by exact Hl.
      destruct (find (skipn lpos s) d 0) as [j|] eqn:G; [|reflexivity].
      apply find_Some_bound in G. rewrite length_skipn in G. lia. }
    split.
    + apply Split_last, find_None_occurs. rewrite find_skipn in F by exact Hl.
      destruct (find (skipn lpos s) d 0); [discriminate | reflexivity].
    + simpl. rewrite F, substr_npos_in_range by exact Hl. reflexivity.
  - simpl. rewrite find_skipn by exact Hl.
    destruct (find (skipn lpos s) d 0) as [j|] eqn:G; simpl.
    + pose proof (find_Some_bound _ _ _ G) as B. rewrite length_skipn in B.
      rewrite substr_in_range by exact Hl. simpl.
      destruct (IH (lpos + j + length d) (result ++ [firstn (lpos + j - lpos) (skipn lpos s)]))
        as (rest & Hrest & Hrun); [lia | lia |].
      replace (lpos + j - lpos) with j in * by lia.
      exists (firstn j (skipn lpos s) :: rest). split.
      * apply Split_index; [exact G|].
        rewrite skipn_skipn.
        replace (j + length d + lpos) with (lpos + j + length d) by lia.
        exact Hrest.
      * rewrite <- app_assoc in Hrun. exact Hrun.
    + exists [skipn lpos s]. split; [apply Split_last, find_None_occurs, G|].
      rewrite substr_npos_in_range by exact Hl. reflexivity.
Qed.

(** Fuel beyond what the loop uses does not change what it returns. *)
Lemma explode_loop_more_fuel d s fuel :
  forall lpos result pieces,
    explode_loop fuel s d lpos result = Returns pieces ->
    forall fuel', fuel <= fuel' ->
    explode_loop fuel' s d lpos result = Returns pieces.
Proof.
  induction fuel as [|fuel IH]; intros lpos result pieces H fuel' Hf.
  - destruct fuel'; simpl in *; destruct (find s d lpos); try discriminate; exact H.
  - destruct fuel' as [|fuel']; [lia|]. simpl in *.
    destruct (find s d lpos); [|exact H].
    destruct (substr s lpos (n - lpos)); simpl in *; try discriminate.
    apply IH with (fuel' := fuel') in H; [exact H | lia].
Qed.

(** With an empty delimiter [find] answers [lpos] itself and the loop does
    not move on: its test succeeds again after every iteration, whatever
    fuel it is given. *)
Lemma explode_empty_delimiter_diverges s fuel :
  forall lpos result,
    lpos <= length s ->
    explode_loop fuel s [] lpos result = OutOfFuel.
Proof.
  induction fuel as [|fuel IH]; intros lpos result Hl;
    assert (F : find s [] lpos = Some lpos)
      by (unfold find; apply Nat.leb_le in Hl; rewrite Hl; destruct (skipn lpos s); reflexivity);
    simpl; rewrite F; [reflexivity|].
  rewrite substr_in_range by exact Hl. simpl.
  rewrite Nat.add_0_r. apply IH, Hl.
Qed.

Lemma explode_Split s d :
  d <> [] -> exists pieces, explode s d = Returns pieces /\ Split d s pieces.
Proof.
  intros Hd.
  destruct (explode_loop_fuel d s Hd (length s) 0 []) as (pieces & HS & HR);
    [lia | lia |].
  exists pieces. split; [exact HR | exact HS].
Qed.

End Explode.

(** * implode *)

Section Implode.

Import Utility.

Implicit Types d s result : std_string.
Implicit Types v parts : list std_string.

(** Once the result is non-empty every further element is preceded by the
    delimiter. *)
Lemma implode_loop_started v d result :
  result <> [] ->
  implode_loop v d result = result ++ flat_map (fun s => d ++ s) v.
Proof.
  revert result; induction v as [|s v IH]; intros result Hr; simpl.
  - rewrite app_nil_r. reflexivity.
  - destruct result as [|c result]; [contradiction|]. simpl.
    rewrite (IH (c :: (result ++ d) ++ s)) by discriminate.
    simpl. rewrite <- !app_assoc. reflexivity.
Qed.

Lemma join_spec_cons d s v :
  join_spec d (s :: v) = s ++ flat_map (fun s => d ++ s) v.
Proof.
  revert s; induction v as [|s' v IH]; intros s.
  - simpl. rewrite app_nil_r. reflexivity.
  - change (join_spec d (s :: s' :: v)) with (s ++ d ++ join_spec d (s' :: v)).
    rewrite IH. simpl. rewrite <- app_assoc. reflexivity.
Qed.

(** While the result is empty no delimiter is written: an empty first
    element leaves the loop where it started. *)
Lemma implode_empty_head v d : implode ([] :: v) d = implode v d.
Proof. reflexivity. Qed.

Lemma implode_nonempty_head s v d :
  s <> [] -> implode (s :: v) d = join_spec d (s :: v).
Proof.
  intros Hs. unfold implode. simpl.
  rewrite implode_loop_started by exact Hs.
  symmetry. apply join_spec_cons.
Qed.

Lemma implode_nil d : implode [] d = [].
Proof. reflexivity. Qed.

Lemma implode_single s d : implode [s] d = s.
Proof. reflexivity. Qed.

Lemma Forall_last (P : std_string -> Prop) parts :
  parts <> [] -> Forall P parts -> P (last parts []).
Proof.
  induction parts as [|p parts IH]; intros Hne H; [contradiction|].
  inversion H as [|? ? Hp Hrest]; subst.
  destruct parts as [|q parts]; [exact Hp|].
  apply IH; [discriminate | exact Hrest].
Qed.

End Implode.

(** * replace *)

Section Replace.

Import Utility.

Implicit Types search repl subject result s : std_string.

Lemma firstn_add (a b : nat) s :
  firstn (a + b) s = firstn a s ++ firstn b (skipn a s).
Proof.
  revert s; induction a as [|a IH]; intros [|c s]; simpl.
  - reflexivity.
  - reflexivity.
  - rewrite firstn_nil. reflexivity.
  - rewrite IH. reflexivity.
Qed.

Lemma string_replace_in_range s pos len repl :
  pos <= length s ->
  string_replace s pos len repl
  = Returns (firstn pos s ++ repl ++ skipn (pos + len) s).
Proof.
  intros H. unfold string_replace. apply Nat.leb_le in H. rewrite H. reflexivity.
Qed.

Lemma ReplacedAll_index search repl s j post' :
  find s search 0 = Some j ->
  ReplacedAll search repl (skipn (j + length search) s) post' ->
  ReplacedAll search repl s (firstn j s ++ repl ++ post').
Proof.
  intros Hf Hr.
  pose proof (find_Some_decomp _ _ _ Hf) as E.
  pose proof (find_Some_length_firstn _ _ _ Hf) as L.
  rewrite E at 1. apply Replaced_next; [|exact Hr].
  apply (clean_cut_find_app search _ (skipn (j + length search) s)).
  rewrite <- E, L. exact Hf.
Qed.

Lemma ReplacedAll_functional search repl s r1 r2 :
  ReplacedAll search repl s r1 -> ReplacedAll search repl s r2 -> r1 = r2.
Proof.
  intros H1. revert r2.
  induction H1 as [s Hs|pre post post' Hf _ IH]; intros r2 H2.
  - inversion H2 as [s' Hs'|pre2 post2 post2' Hf2 Hr2 E]; subst; [reflexivity|].
    exfalso. apply Hs, occurs_cut.
  - inversion H2 as [s' Hs'|pre2 post2 post2' Hf2 Hr2 E]; subst.
    + exfalso. apply Hs', occurs_cut.
    + apply (clean_cut_find_app search pre post) in Hf.
      apply (clean_cut_find_app search pre2 post2) in Hf2.
      rewrite E, Hf in Hf2. injection Hf2 as L.
      apply app_eq_length in E as [-> E]; [|symmetry; exact L].
      apply app_inv_head in E. subst post2.
      do 2 f_equal. apply IH, Hr2.
Qed.

(** Replacing is cutting at the occurrences and joining the pieces with the
    replacement. *)
Lemma ReplacedAll_join search repl s pieces :
  Split search s pieces -> ReplacedAll search repl s (join_spec repl pieces).
Proof.
  induction 1 as [s Hs|pre post rest Hf Hr IH].
  - apply Replaced_none, Hs.
  - destruct rest as [|q rest].
    + exfalso. exact (Split_nonempty _ _ _ Hr eq_refl).
    + change (join_spec repl (pre :: q :: rest))
        with (pre ++ repl ++ join_spec repl (q :: rest)).
      apply Replaced_next; [exact Hf | exact IH].
Qed.

(** One iteration: the next search starts behind the text just inserted, and
    fewer characters are left to scan than before. *)
Lemma replace_step_advances search repl result search_pos off :
  search <> [] ->
  search_pos <= length result ->
  find result search search_pos = Some off ->
  exists result',
    string_replace result off (length search) repl = Returns result' /\
    firstn (off + length repl) result' = firstn off result ++ repl /\
    skipn (off + length repl) result' = skipn (off + length search) result /\
    off + length repl <= length result' /\
    length result' - (off + length repl) < length result - search_pos.
Proof.
  intros Hs Hl Hf.
  assert (Ls : 0 < length search) by (destruct search; simpl; [contradiction | lia]).
  rewrite find_skipn in Hf by exact Hl.
  destruct (find (skipn search_pos result) search 0) as [j|] eqn:G; [|discriminate].
  simpl in Hf. injection Hf as <-.
  pose proof (find_Some_bound _ _ _ G) as B. rewrite length_skipn in B.
  set (off := search_pos + j) in *.
  assert (Lp : length (firstn off result ++ repl) = off + length repl).
  { rewrite length_app, firstn_length_le by lia. reflexivity. }
  exists (firstn off result ++ repl ++ skipn (off + length search) result).
  split; [apply string_replace_in_range; lia|].
  rewrite !app_assoc, <- Lp.
  rewrite firstn_app, firstn_all, Nat.sub_diag, firstn_O, app_nil_r.
  rewrite skipn_app, skipn_all, Nat.sub_diag, skipn_O.
  repeat split.
  - rewrite !length_app. lia.
  - rewrite !length_app, length_skipn, firstn_length_le by (subst off; lia).
    subst off. lia.
Qed.

(** The loop, with enough fuel for the characters behind [search_pos],
    returns the text before [search_pos] followed by the rest with every
    occurrence replaced. *)
Lemma replace_loop_fuel search repl :
  search <> [] ->
  forall fuel result search_pos,
    search_pos <= length result ->
    length result - search_pos <= fuel ->
    exists post',
      ReplacedAll search repl (skipn search_pos result) post' /\
      replace_loop fuel search repl result (find result search search_pos)
      = Returns (firstn search_pos result ++ post').
Proof.
  intros Hs.
  induction fuel as [|fuel IH]; intros result search_pos Hl Hf;
    destruct (find result search search_pos) as [off|] eqn:F.
  - destruct (replace_step_advances search repl result search_pos off Hs Hl F)
      as (? & _ & _ & _ & _ & M). lia.
  - exists (skipn search_pos result). rewrite firstn_skipn. split; [|reflexivity].
    apply Replaced_none, find_None_occurs. rewrite find_skipn in F by exact Hl.
    destruct (find (skipn search_pos result) search 0); [discriminate | reflexivity].
  - destruct (replace_step_advances search repl result search_pos off Hs Hl F)
      as (result' & R & E1 & E2 & B & M).
    simpl. rewrite R. simpl.
    destruct (IH result' (off + length repl)) as (post'' & HR & Hrun); [lia | lia |].
    rewrite Hrun, E1. rewrite E2 in HR.
    rewrite find_skipn in F by exact Hl.
    destruct (find (skipn search_pos result) search 0) as [j|] eqn:G; [|discriminate].
    simpl in F. injection F as <-.
    exists (firstn j (skipn search_pos result) ++ repl ++ post''). split.
    + apply ReplacedAll_index; [exact G|].
      rewrite skipn_skipn.
      replace (j + length search + search_pos)
        with (search_pos + j + length search) by lia.
      exact HR.
    + rewrite firstn_add, <- !app_assoc. reflexivity.
  - exists (skipn search_pos result). rewrite firstn_skipn. split; [|reflexivity].
    apply Replaced_none, find_None_occurs. rewrite find_skipn in F by exact Hl.
    destruct (find (skipn search_pos result) search 0); [discriminate | reflexivity].
Qed.

Lemma replace_nonempty_search search repl subject :
  search <> [] ->
  replace search repl subject
  = replace_loop (length subject) search repl subject (find subject search 0).
Proof.
  intros Hs. unfold replace.
  destruct search; [contradiction | reflexivity].
Qed.

End Replace.

(** * repeat *)

Section Repeat.

Import Utility.

Implicit Types s result : std_string.

Lemma repeat_loop_counts s n :
  (n <= INT_MAX)%Z ->
  forall fuel i result,
    (0 <= i <= n)%Z ->
    fuel = Z.to_nat (n - i) ->
    repeat_loop fuel s n i result
    = Returns (result ++ concat (List.repeat s fuel)).
Proof.
  intros Hn. induction fuel as [|fuel IH]; intros i result Hi Hf.
  - assert (i = n) by lia. subst i. simpl.
    rewrite Z.ltb_irrefl, app_nil_r. reflexivity.
  - assert (Hlt : (i <? n)%Z = true) by (apply Z.ltb_lt; lia).
    assert (Hle : (i + 1 <=? INT_MAX)%Z = true) by (apply Z.leb_le; lia).
    simpl. rewrite Hlt, Hle.
    rewrite IH by lia. rewrite <- app_assoc. reflexivity.
Qed.

Lemma repeat_counts s n :
  (0 <= n <= INT_MAX)%Z ->
  repeat s n = Returns (concat (List.repeat s (Z.to_nat n))).
Proof.
  intros Hn. unfold repeat.
  rewrite (repeat_loop_counts s n) by lia. reflexivity.
Qed.

End Repeat.

(** * ltrim, rtrim, trim, strtolower *)

Section Trim.

Import Utility.

Implicit Types s t : std_string.

Lemma ltrim_skipn s : ltrim s = skipn (find_if isgraph s) s.
Proof. reflexivity. Qed.

Lemma rtrim_rev s : rtrim s = rev (ltrim (rev s)).
Proof.
  unfold rtrim, erase. rewrite skipn_all, app_nil_r.
  rewrite ltrim_skipn, skipn_rev, rev_involutive. reflexivity.
Qed.

Lemma ltrim_head s :
  ltrim s = [] \/ exists c t, ltrim s = c :: t /\ isgraph c = true.
Proof.
  rewrite ltrim_skipn. induction s as [|c s IH]; simpl.
  - left; reflexivity.
  - destruct (isgraph c) eqn:E; simpl.
    + right. exists c, s. split; [reflexivity | exact E].
    + exact IH.
Qed.

Lemma ltrim_graph_head c t : isgraph c = true -> ltrim (c :: t) = c :: t.
Proof. intros H. rewrite ltrim_skipn. simpl. rewrite H. reflexivity. Qed.

Lemma ltrim_idempotent s : ltrim (ltrim s) = ltrim s.
Proof.
  destruct (ltrim_head s) as [E|(c & t & E & Hc)]; rewrite E.
  - reflexivity.
  - apply ltrim_graph_head, Hc.
Qed.

Lemma ltrim_suffix s : exists pre, s = pre ++ ltrim s.
Proof.
  exists (firstn (find_if isgraph s) s). rewrite ltrim_skipn.
  symmetry. apply firstn_skipn.
Qed.

Lemma rtrim_ends_graph s : ends_graph (rtrim s).
Proof.
  unfold ends_graph. rewrite rtrim_rev, rev_involutive. apply ltrim_head.
Qed.

Lemma ltrim_keeps_end s : ends_graph s -> ends_graph (ltrim s).
Proof.
  intros H. destruct (ltrim_suffix s) as [pre E].
  unfold ends_graph in *. rewrite E, rev_app_distr in H.
  destruct (rev (ltrim s)) as [|c t]; [left; reflexivity|].
  right. exists c, t. split; [reflexivity|].
  destruct H as [H|(c' & t' & H & Hc)]; [discriminate|].
  simpl in H. injection H as <- _. exact Hc.
Qed.

Lemma rtrim_ends_graph_fix s : ends_graph s -> rtrim s = s.
Proof.
  intros [H|(c & t & H & Hc)]; rewrite rtrim_rev, H.
  - rewrite <- (rev_involutive s), H. reflexivity.
  - rewrite ltrim_graph_head by exact Hc.
    rewrite <- H. apply rev_involutive.
Qed.

Lemma trim_idempotent s : trim (trim s) = trim s.
Proof.
  unfold trim.
  rewrite (rtrim_ends_graph_fix (ltrim (rtrim s))).
  - apply ltrim_idempotent.
  - apply ltrim_keeps_end, rtrim_ends_graph.
Qed.

Lemma tolower_idempotent c : tolower (tolower c) = tolower c.
Proof.
  destruct c as [b0 b1 b2 b3 b4 b5 b6 b7].
  destruct b0, b1, b2, b3, b4, b5, b6, b7; reflexivity.
Qed.

Lemma strtolower_idempotent s : strtolower (strtolower s) = strtolower s.
Proof.
  unfold strtolower. rewrite map_map.
  apply map_ext. intros c. apply tolower_idempotent.
Qed.

End Trim.

(** * parse_addr *)

Section ParseAddr.

Import Utility.

Variable getaddrinfo : resolver.

Lemma skipn_zeros (n m : nat) :
  skipn n (List.repeat Byte.x00 m) = List.repeat Byte.x00 (m - n).
Proof.
  revert m; induction n as [|n IH]; intros [|m]; simpl; try reflexivity.
  apply IH.
Qed.

Lemma memcpy_Returns dst src n a :
  memcpy dst src n = Returns a ->
  n <= length dst /\ n <= length src /\ a = firstn n src ++ skipn n dst.
Proof.
  unfold memcpy. intros H.
  destruct (n <=? length dst) eqn:E1; [|discriminate].
  destruct (n <=? length src) eqn:E2; [|discriminate].
  apply Nat.leb_le in E1, E2. injection H as <-.
  repeat split; assumption.
Qed.

(** The three ways to fail all end in the one [throw]. *)
Lemma parse_addr_throws addr rc res :
  getaddrinfo (c_str addr) numeric_hints = (rc, res) ->
  rc <> 0%Z \/ res = [] \/
  (exists first rest, res = first :: rest /\
     ai_family first <> AF_INET /\ ai_family first <> AF_INET6) ->
  parse_addr getaddrinfo addr = Throws parse_error.
Proof.
  intros G H. unfold parse_addr. rewrite G.
  destruct (rc =? 0)%Z eqn:Erc; [|reflexivity]. simpl.
  destruct H as [H|[->|(first & rest & -> & H4 & H6)]].
  - apply Z.eqb_eq in Erc. contradiction.
  - reflexivity.
  - apply Z.eqb_neq in H4, H6. rewrite H4, H6. reflexivity.
Qed.

(** A call that returns went past the three tests and copied the first
    candidate. *)
Lemma parse_addr_Returns addr a :
  parse_addr getaddrinfo addr = Returns a ->
  exists first rest,
    getaddrinfo (c_str addr) numeric_hints = (0%Z, first :: rest) /\
    (ai_family first = AF_INET \/ ai_family first = AF_INET6) /\
    memcpy (List.repeat Byte.x00 sizeof_sockaddr_storage)
           (ai_addr first) (ai_addrlen first) = Returns a.
Proof.
  unfold parse_addr. intros H.
  destruct (getaddrinfo (c_str addr) numeric_hints) as [rc res].
  destruct (rc =? 0)%Z eqn:Erc; [|discriminate]. simpl in H.
  apply Z.eqb_eq in Erc. subst rc.
  destruct res as [|first rest]; [discriminate|].
  exists first, rest. split; [reflexivity|].
  destruct (ai_family first =? AF_INET)%Z eqn:E4;
    destruct (ai_family first =? AF_INET6)%Z eqn:E6;
    simpl in H; try discriminate;
    (split; [|exact H]).
  - left. apply Z.eqb_eq, E4.
  - left. apply Z.eqb_eq, E4.
  - right. apply Z.eqb_eq, E6.
Qed.

End ParseAddr.

Lemma loopback_resolver_conforming : conforming loopback_resolver.
Proof.
  intros node hints rc first rest H _. unfold loopback_resolver in H.
  destruct (String.eqb (string_of_list_ascii node) "127.0.0.1");
    [injection H as _ <- _; split; reflexivity|].
  destruct (String.eqb (string_of_list_ascii node) "::1");
    [injection H as _ <- _; split; reflexivity|].
  destruct (String.eqb (string_of_list_ascii node) "unix");
    [injection H as _ <- _; split; reflexivity|].
  discriminate.
Qed.

(** * The properties of the specification *)

Section Properties.

Import Utility.

(** ** parse_addr *)

(** C1, as the code has it: when the resolver reports an error, leaves no
    candidate, or its first candidate is of a family other than IPv4 and
    IPv6, [parse_addr] throws the one [std::runtime_error] it has, whose
    message is the fixed text of the source, and returns no address. *)
Theorem parse_addr_failure_single_error :
  forall (getaddrinfo : resolver) (addr : std_string) rc res,
    getaddrinfo (c_str addr) numeric_hints = (rc, res) ->
    rc <> 0%Z \/ res = [] \/
    (exists first rest, res = first :: rest /\
       ai_family first <> AF_INET /\ ai_family first <> AF_INET6) ->
    parse_addr getaddrinfo addr
    = Throws (runtime_error (lit "Could not parse the provided address.")).
Proof.
  intros getaddrinfo addr rc res G H.
  exact (parse_addr_throws getaddrinfo addr rc res G H).
Qed.

Lemma parse_addr_failure_single_error_witness :
  parse_addr loopback_resolver (lit "example.com")
  = Throws (runtime_error (lit "Could not parse the provided address.")).
Proof.
  apply (parse_addr_failure_single_error loopback_resolver (lit "example.com")
           EAI_NONAME []).
  - reflexivity.
  - left. discriminate.
Defined.

(** The error does not name its input: on ["example.com"], which the
    resolver rejects, the message thrown does not hold the input text. *)
Lemma parse_addr_error_without_input_text :
  fst (loopback_resolver (c_str (lit "example.com")) numeric_hints) = EAI_NONAME /\
  exists e,
    parse_addr loopback_resolver (lit "example.com") = Throws e /\
    carries e (lit "example.com") = false.
Proof.
  split; [reflexivity|].
  exists parse_error. split; reflexivity.
Qed.

(** C2: over a resolver that keeps the POSIX contract, an address that
    [parse_addr] returns has the family of the first candidate, which is
    IPv4 or IPv6, and starts with the bytes of that candidate's address,
    copied as they are; the bytes behind them are the zeros the buffer was
    initialised with. *)
Theorem parse_addr_success_copies_first_candidate :
  forall (getaddrinfo : resolver),
    conforming getaddrinfo ->
    forall (addr : std_string) (a : sockaddr_storage),
      parse_addr getaddrinfo addr = Returns a ->
      exists first rest,
        getaddrinfo (c_str addr) numeric_hints = (0%Z, first :: rest) /\
        (ai_family first = AF_INET \/ ai_family first = AF_INET6) /\
        ss_family a = Some (ai_family first) /\
        firstn (ai_addrlen first) a = ai_addr first /\
        skipn (ai_addrlen first) a
        = List.repeat Byte.x00 (sizeof_sockaddr_storage - ai_addrlen first) /\
        length a = sizeof_sockaddr_storage.
Proof.
  intros getaddrinfo Hc addr a H.
  destruct (parse_addr_Returns getaddrinfo addr a H) as (first & rest & G & Hf & M).
  destruct (Hc _ _ _ _ _ G eq_refl) as [L F].
  apply memcpy_Returns in M as (Ld & _ & ->).
  rewrite repeat_length in Ld.
  exists first, rest. rewrite <- L in *. rewrite firstn_all.
  repeat split; try assumption.
  - unfold ss_family. destruct (ai_addr first) as [|lo [|hi tl]]; try discriminate.
    exact F.
  - rewrite firstn_app, firstn_all, Nat.sub_diag, firstn_O, app_nil_r. reflexivity.
  - rewrite skipn_app, skipn_all, Nat.sub_diag, skipn_O.
    exact (skipn_zeros _ _).
  - rewrite length_app, length_skipn, repeat_length. lia.
Qed.

Lemma parse_addr_success_copies_first_candidate_witness :
  exists first rest,
    loopback_resolver (c_str (lit "127.0.0.1")) numeric_hints = (0%Z, first :: rest) /\
    (ai_family first = AF_INET \/ ai_family first = AF_INET6) /\
    ss_family (sockaddr_in_loopback ++ List.repeat Byte.x00 112)
    = Some (ai_family first) /\
    firstn (ai_addrlen first) (sockaddr_in_loopback ++ List.repeat Byte.x00 112)
    = ai_addr first /\
    skipn (ai_addrlen first) (sockaddr_in_loopback ++ List.repeat Byte.x00 112)
    = List.repeat Byte.x00 (sizeof_sockaddr_storage - ai_addrlen first) /\
    length (sockaddr_in_loopback ++ List.repeat Byte.x00 112)
    = sizeof_sockaddr_storage.
Proof.
  apply (parse_addr_success_copies_first_candidate
           loopback_resolver loopback_resolver_conforming (lit "127.0.0.1")).
  reflexivity.
Defined.

(** ** implode *)

(** C3, where the code departs from it: the delimiter is written only once
    the result is non-empty, so none follows an empty first element;
    [implode] of the empty string and ["a"] by ["-"] is ["a"], the join is
    ["-a"]. *)
Theorem implode_drops_delimiter_after_empty_head :
  implode [[]; lit "a"] (lit "-") = lit "a" /\
  join_spec (lit "-") [[]; lit "a"] = lit "-a" /\
  implode [[]; []] (lit ",") = [] /\
  join_spec (lit ",") [[]; []] = lit ",".
Proof. repeat split. Qed.

(** What the code keeps of the join: the empty sequence gives the empty string, a
    single element gives that element, and behind a non-empty first element
    the delimiter stands between every two consecutive elements. *)
Lemma implode_join_spec :
  forall (v : list std_string) (d : std_string),
    implode [] d = [] /\
    (forall s, implode [s] d = s) /\
    (hd [] v <> [] -> implode v d = join_spec d v).
Proof.
  intros v d. repeat split.
  destruct v as [|s v]; simpl; [contradiction|].
  apply implode_nonempty_head.
Qed.

(** ** explode *)

(** C5: with a non-empty delimiter [explode] returns the pieces of [s]
    between the occurrences of [d] that a left-to-right scan meets: joined
    by [d] they give [s] back and none of them holds [d]; a string without
    [d] is its own single piece, and the empty string gives one empty
    piece.  ["a,,b"] cut at [","] is ["a"], the empty string and ["b"];
    ["abc"] is left whole. *)
Theorem explode_cuts_at_every_occurrence :
  (forall s d : std_string,
      d <> [] ->
      exists pieces,
        explode s d = Returns pieces /\
        Split d s pieces /\
        join_spec d pieces = s /\
        Forall (fun p => ~ occurs d p) pieces /\
        (~ occurs d s -> pieces = [s]) /\
        (s = [] -> pieces = [[]])) /\
  explode (lit "a,,b") (lit ",") = Returns [lit "a"; []; lit "b"] /\
  explode (lit "abc") (lit ",") = Returns [lit "abc"].
Proof.
  split; [|split; reflexivity].
  intros s d Hd.
  destruct (explode_Split s d Hd) as (pieces & HR & HS).
  exists pieces. repeat split.
  - exact HR.
  - exact HS.
  - apply Split_join, HS.
  - apply (Split_free d s); [exact Hd | exact HS].
  - intros Hn. apply (Split_functional d s); [exact HS | apply Split_last, Hn].
  - intros ->. apply (Split_functional d []); [exact HS|].
    apply Split_last, find_None_occurs. destruct d; [contradiction | reflexivity].
Qed.

Lemma explode_cuts_at_every_occurrence_witness :
  exists pieces,
    explode (lit "a::b::") (lit "::") = Returns pieces /\
    Split (lit "::") (lit "a::b::") pieces /\
    join_spec (lit "::") pieces = lit "a::b::" /\
    Forall (fun p => ~ occurs (lit "::") p) pieces /\
    (~ occurs (lit "::") (lit "a::b::") -> pieces = [lit "a::b::"]) /\
    (lit "a::b::" = [] -> pieces = [[]]).
Proof.
  apply (proj1 explode_cuts_at_every_occurrence (lit "a::b::") (lit "::")).
  discriminate.
Defined.

(** C8, as the code has it: with a non-empty delimiter [explode] returns at
    least one piece, the pieces are those of the left-to-right scan
    ([Split]), and the last one is what is left of [s] behind the last
    delimiter the scan cut out: [s] is the earlier pieces, each followed by
    [d], and then the last piece, which holds no [d]; it is [s] itself when
    [d] does not occur. *)
Theorem explode_last_piece :
  forall s d : std_string,
    d <> [] ->
    exists pieces init final,
      explode s d = Returns pieces /\
      Split d s pieces /\
      1 <= length pieces /\
      pieces = init ++ [final] /\
      last pieces [] = final /\
      s = flat_map (fun p => p ++ d) init ++ final /\
      ~ occurs d final /\
      (~ occurs d s -> final = s).
Proof.
  intros s d Hd.
  destruct (explode_Split s d Hd) as (pieces & HR & HS).
  destruct (Split_last_piece d s pieces HS) as (init & final & -> & E & Hl).
  exists (init ++ [final]), init, final. repeat split.
  - exact HR.
  - exact HS.
  - rewrite length_app. simpl. lia.
  - apply last_last.
  - exact E.
  - exact Hl.
  - intros Hn.
    pose proof (Split_functional d s _ _ HS (Split_last d s Hn)) as F.
    destruct init as [|p [|q init]]; simpl in F; try discriminate.
    injection F as ->. reflexivity.
Qed.

Lemma explode_last_piece_witness :
  exists pieces init final,
    explode (lit "k=v=w") (lit "=") = Returns pieces /\
    Split (lit "=") (lit "k=v=w") pieces /\
    1 <= length pieces /\
    pieces = init ++ [final] /\
    last pieces [] = final /\
    lit "k=v=w" = flat_map (fun p => p ++ lit "=") init ++ final /\
    ~ occurs (lit "=") final /\
    (~ occurs (lit "=") (lit "k=v=w") -> final = lit "k=v=w").
Proof.
  apply (explode_last_piece (lit "k=v=w") (lit "=")). discriminate.
Defined.

(** Where occurrences of the delimiter overlap, the last piece is not what
    follows the last occurrence: in ["aaa"] the last ["aa"] starts at index 1
    and nothing follows it, while the scan, which cut at index 0, leaves
    ["a"]. *)
Lemma explode_last_piece_overlap :
  lit "aa" <> [] /\
  final_occurrence (lit "aa") (lit "aaa") 1 /\
  skipn (1 + length (lit "aa")) (lit "aaa") = [] /\
  explode (lit "aaa") (lit "aa") = Returns [[]; lit "a"] /\
  last [[]; lit "a"] [] = lit "a" /\
  lit "a" <> skipn (1 + length (lit "aa")) (lit "aaa").
Proof.
  split; [discriminate|].
  split.
  { split; [reflexivity|]. split; [simpl; lia|].
    intros j Hj Hlen. simpl in Hlen. lia. }
  split; [reflexivity|].
  split; [reflexivity|].
  split; [reflexivity | discriminate].
Qed.

(** ** explode after implode *)

(** C4, as the code has it: for a non-empty [d] and a [parts] that is the
    single empty string or starts with a non-empty element, if no element
    holds [d] and, for every element [p] that a delimiter follows, [d] does
    not occur in [p ++ d] before the end of [p], then
    [explode(implode(parts, d), d)] is [parts]. *)
Theorem explode_implode_round_trip :
  forall (parts : list std_string) (d : std_string),
    d <> [] ->
    parts = [[]] \/ hd [] parts <> [] ->
    Forall (fun p => ~ occurs d p) parts ->
    Forall (clean_cut d) (removelast parts) ->
    explode (implode parts d) d = Returns parts.
Proof.
  intros parts d Hd Hhead Hfree Hclean.
  destruct Hhead as [->|Hhd].
  { destruct d; [contradiction | reflexivity]. }
  assert (Hne : parts <> []) by (intros ->; apply Hhd; reflexivity).
  assert (E : implode parts d = join_spec d parts).
  { destruct parts as [|p parts]; [contradiction|].
    apply implode_nonempty_head, Hhd. }
  rewrite E.
  destruct (explode_Split (join_spec d parts) d Hd) as (pieces & HR & HS).
  rewrite HR. f_equal.
  apply (Split_functional d (join_spec d parts)); [exact HS|].
  apply Split_of_join; [exact Hne | exact Hclean|].
  apply (Forall_last (fun p => ~ occurs d p)); assumption.
Qed.

Lemma explode_implode_round_trip_witness :
  explode (implode [lit "usr"; []; lit "lib"] (lit "/")) (lit "/")
  = Returns [lit "usr"; []; lit "lib"].
Proof.
  apply (explode_implode_round_trip [lit "usr"; []; lit "lib"] (lit "/")).
  - discriminate.
  - right. discriminate.
  - repeat constructor; apply find_None_occurs; reflexivity.
  - repeat constructor; apply clean_cut_find; reflexivity.
Defined.

(** That no element holds the delimiter is not enough: neither ["a"] nor
    ["b"] holds ["aa"], yet joined by ["aa"] they give ["aaab"], in which
    the scan finds ["aa"] at the very start. *)
Lemma explode_implode_overlap :
  lit "aa" <> [] /\
  Forall (fun p => ~ occurs (lit "aa") p) [lit "a"; lit "b"] /\
  implode [lit "a"; lit "b"] (lit "aa") = lit "aaab" /\
  explode (implode [lit "a"; lit "b"] (lit "aa")) (lit "aa")
  = Returns [[]; lit "ab"] /\
  explode (implode [lit "a"; lit "b"] (lit "aa")) (lit "aa")
  <> Returns [lit "a"; lit "b"].
Proof.
  split; [discriminate|].
  split; [repeat constructor; apply find_None_occurs; reflexivity|].
  split; [reflexivity|].
  split; [reflexivity | discriminate].
Qed.

(** The empty sequence does not come back either: it is joined to the empty
    string, which [explode] cuts into one empty piece. *)
Lemma explode_implode_nil :
  forall d : std_string,
    d <> [] -> explode (implode [] d) d = Returns [[]].
Proof.
  intros d Hd. destruct d; [contradiction | reflexivity].
Qed.

(** ** replace *)

(** C6: with a non-empty [search], [replace] returns [subject] with the
    occurrences of [search] that a left-to-right scan meets replaced by the
    replacement, the scan going on in the text of [subject] behind each
    occurrence and never in the text it put in; the result is the pieces
    [explode] cuts [subject] into, joined by the replacement.  With an empty
    [search] it returns [subject]. *)
Theorem replace_replaces_every_occurrence :
  forall search repl subject : std_string,
    (search = [] -> replace search repl subject = Returns subject) /\
    (search <> [] ->
     exists r pieces,
       replace search repl subject = Returns r /\
       ReplacedAll search repl subject r /\
       explode subject search = Returns pieces /\
       r = join_spec repl pieces).
Proof.
  intros search repl subject. split.
  - intros ->. reflexivity.
  - intros Hs.
    destruct (replace_loop_fuel search repl Hs (length subject) subject 0)
      as (r & HR & Hrun); [lia | lia |].
    rewrite skipn_O in HR. simpl in Hrun.
    destruct (explode_Split subject search Hs) as (pieces & HE & HS).
    exists r, pieces. repeat split.
    + rewrite replace_nonempty_search by exact Hs. exact Hrun.
    + exact HR.
    + exact HE.
    + apply (ReplacedAll_functional search repl subject); [exact HR|].
      apply ReplacedAll_join, HS.
Qed.

Lemma replace_replaces_every_occurrence_witness :
  exists r pieces,
    replace (lit "a") (lit "bb") (lit "banana") = Returns r /\
    ReplacedAll (lit "a") (lit "bb") (lit "banana") r /\
    explode (lit "banana") (lit "a") = Returns pieces /\
    r = join_spec (lit "bb") pieces.
Proof.
  apply (proj2 (replace_replaces_every_occurrence (lit "a") (lit "bb") (lit "banana"))).
  discriminate.
Defined.

(** The two calls the specification lists for [replaceAll]. *)
Example replace_banana :
  replace (lit "a") (lit "bb") (lit "banana") = Returns (lit "bbbnbbnbb") /\
  replace ([]) (lit "x") (lit "abc") = Returns (lit "abc").
Proof. split; reflexivity. Qed.

(** C10: with a non-empty [search] the loop of [replace] comes to an end
    whatever the replacement is: [subject.length()] iterations are enough,
    more fuel changes nothing, and in every iteration the next search starts
    behind the text just put in, with fewer characters left to scan. *)
Theorem replace_terminates :
  forall search repl subject : std_string,
    search <> [] ->
    (exists r,
        replace search repl subject = Returns r /\
        forall fuel,
          length subject <= fuel ->
          replace_loop fuel search repl subject (find subject search 0)
          = Returns r) /\
    (forall result search_pos off,
        search_pos <= length result ->
        find result search search_pos = Some off ->
        exists result',
          string_replace result off (length search) repl = Returns result' /\
          firstn (off + length repl) result' = firstn off result ++ repl /\
          off + length repl <= length result' /\
          length result' - (off + length repl) < length result - search_pos).
Proof.
  intros search repl subject Hs. split.
  - destruct (replace_loop_fuel search repl Hs (length subject) subject 0)
      as (r & HR & Hrun); [lia | lia |].
    rewrite skipn_O in HR. simpl in Hrun.
    exists r. split.
    + rewrite replace_nonempty_search by exact Hs. exact Hrun.
    + intros fuel Hf.
      destruct (replace_loop_fuel search repl Hs fuel subject 0)
        as (r' & HR' & Hrun'); [lia | lia |].
      rewrite skipn_O in HR'. simpl in Hrun'. rewrite Hrun'.
      rewrite (ReplacedAll_functional search repl subject r' r HR' HR).
      reflexivity.
  - intros result search_pos off Hl Hf.
    destruct (replace_step_advances search repl result search_pos off Hs Hl Hf)
      as (result' & R & E1 & _ & B & M).
    exists result'. repeat split; assumption.
Qed.

Lemma replace_terminates_witness :
  (exists r,
      replace (lit "a") (lit "aa") (lit "aaa") = Returns r /\
      forall fuel,
        length (lit "aaa") <= fuel ->
        replace_loop fuel (lit "a") (lit "aa") (lit "aaa")
          (find (lit "aaa") (lit "a") 0)
        = Returns r) /\
  (forall result search_pos off,
      search_pos <= length result ->
      find result (lit "a") search_pos = Some off ->
      exists result',
        string_replace result off (length (lit "a")) (lit "aa") = Returns result' /\
        firstn (off + length (lit "aa")) result' = firstn off result ++ lit "aa" /\
        off + length (lit "aa") <= length result' /\
        length result' - (off + length (lit "aa")) < length result - search_pos).
Proof.
  apply (replace_terminates (lit "a") (lit "aa") (lit "aaa")). discriminate.
Defined.

(** The replacement may hold the search string: nothing is replaced twice. *)
Example replace_a_by_aa :
  replace (lit "a") (lit "aa") (lit "aaa") = Returns (lit "aaaaaa").
Proof. reflexivity. Qed.

(** ** trim, strtolower *)

(** C7: [trim] and [strtolower] are idempotent. *)
Theorem trim_strtolower_idempotent :
  forall s : std_string,
    trim (trim s) = trim s /\
    strtolower (strtolower s) = strtolower s.
Proof.
  intros s. split; [apply trim_idempotent | apply strtolower_idempotent].
Qed.

(** ** repeat *)

(** C9: for a count that is zero or negative [repeat] returns the empty
    string; the loop test fails at once. *)
Theorem repeat_nonpositive :
  forall (s : std_string) (n : Z),
    (n <= 0)%Z -> repeat s n = Returns [].
Proof.
  intros s n Hn. unfold repeat.
  replace (Z.to_nat n) with 0 by lia. simpl.
  assert (E : (0 <? n)%Z = false) by (apply Z.ltb_ge; exact Hn).
  rewrite E. reflexivity.
Qed.

Lemma repeat_nonpositive_witness :
  repeat (lit "ab") (-3) = Returns [].
Proof.
  apply (repeat_nonpositive (lit "ab") (-3)). lia.
Defined.

End Properties.

(** * The calls the specification lists *)

Section Examples.

Import Utility.

Example implode_abc :
  implode [lit "a"; lit "b"; lit "c"] (lit "-") = lit "a-b-c" /\
  implode [] (lit "-") = [].
Proof. split; reflexivity. Qed.

Example trim_hi :
  trim (lit "  hi  ") = lit "hi" /\ trim (lit "   ") = [].
Proof. split; reflexivity. Qed.

Example repeat_ab :
  repeat (lit "ab") 3 = Returns (lit "ababab") /\
  repeat (lit "x") 0 = Returns [].
Proof. split; reflexivity. Qed.

Example strtolower_mixed :
  strtolower (lit "MiXeD123") = lit "mixed123".
Proof. reflexivity. Qed.

(** Occurrences that overlap: the scan cuts ["aaa"] at the first ["aa"] and
    finds no second one behind it. *)
Example explode_overlapping :
  explode (lit "aaa") (lit "aa") = Returns [[]; lit "a"].
Proof. reflexivity. Qed.

(** With an empty delimiter the loop is still running after [s.length()]
    iterations. *)
Example explode_empty_delimiter :
  forall s : std_string, explode s [] = OutOfFuel.
Proof.
  intros s. apply explode_empty_delimiter_diverges. lia.
Qed.

Example parse_addr_loopback :
  (exists a, parse_addr loopback_resolver (lit "127.0.0.1") = Returns a /\
             ss_family a = Some AF_INET) /\
  (exists a, parse_addr loopback_resolver (lit "::1") = Returns a /\
             ss_family a = Some AF_INET6) /\
  parse_addr loopback_resolver [] = Throws parse_error /\
  parse_addr loopback_resolver (lit "999.1.1.1") = Throws parse_error /\
  parse_addr loopback_resolver (lit "unix") = Throws parse_error.
Proof.
  repeat split; try reflexivity; eexists; split; reflexivity.
Qed.

End Examples.

(** * Further properties of the string functions *)

Section MoreExplode.

Import Utility.

Implicit Types d s search repl subject : std_string.
Implicit Types pieces v : list std_string.

Lemma length_join_spec d pieces :
  pieces <> [] ->
  length (join_spec d pieces) + length d
  = list_sum (map (@length ascii) pieces) + length pieces * length d.
Proof.
  induction pieces as [|p pieces IH]; intros Hne; [contradiction|].
  destruct pieces as [|q pieces].
  - simpl. lia.
  - change (join_spec d (p :: q :: pieces))
      with (p ++ d ++ join_spec d (q :: pieces)).
    rewrite !length_app.
    specialize (IH ltac:(discriminate)).
    change (list_sum (map (@length ascii) (p :: q :: pieces)))
      with (length p + list_sum (map (@length ascii) (q :: pieces))).
    change (length (p :: q :: pieces)) with (S (length (q :: pieces))).
    lia.
Qed.

(** X1: for a non-empty delimiter the loop of [explode] comes to an end within
    [s.length()] iterations: [explode] returns, any larger fuel gives the
    same pieces, and there is at most one piece more than [s] has
    characters. *)
Theorem explode_terminates :
  forall s d : std_string,
    d <> [] ->
    exists pieces,
      explode s d = Returns pieces /\
      (forall fuel, length s <= fuel ->
                    explode_loop fuel s d 0 [] = Returns pieces) /\
      length pieces <= S (length s).
Proof.
  intros s d Hd.
  destruct (explode_Split s d Hd) as (pieces & HR & HS).
  exists pieces. repeat split.
  - exact HR.
  - intros fuel Hf.
    destruct (explode_loop_fuel d s Hd fuel 0 []) as (pieces' & HS' & HR');
      [lia | lia |].
    simpl in HR', HS'. rewrite HR'.
    rewrite (Split_functional d s pieces' pieces HS' HS). reflexivity.
  - pose proof (length_join_spec d pieces (Split_nonempty d s pieces HS)) as L.
    rewrite (Split_join d s pieces HS) in L.
    assert (0 < length d) by (destruct d; simpl; [contradiction | lia]).
    nia.
Qed.

Lemma explode_terminates_witness :
  exists pieces,
    explode (lit "a b  c") (lit " ") = Returns pieces /\
    (forall fuel, length (lit "a b  c") <= fuel ->
                  explode_loop fuel (lit "a b  c") (lit " ") 0 [] = Returns pieces) /\
    length pieces <= S (length (lit "a b  c")).
Proof.
  apply (explode_terminates (lit "a b  c") (lit " ")). discriminate.
Defined.

(** X3: [implode] after [explode] gives the string back when it does not
    start with the delimiter. *)
Theorem implode_explode_round_trip :
  forall s d : std_string,
    d <> [] ->
    starts_with d s = false ->
    exists pieces,
      explode s d = Returns pieces /\ implode pieces d = s.
Proof.
  intros s d Hd Hs.
  destruct (explode_Split s d Hd) as (pieces & HR & HS).
  exists pieces. split; [exact HR|].
  pose proof (Split_join d s pieces HS) as J.
  destruct HS as [s Hn|pre post rest Hc Hrest].
  - reflexivity.
  - destruct pre as [|c pre].
    + simpl in Hs. rewrite starts_with_app in Hs. discriminate.
    + rewrite implode_nonempty_head by discriminate. exact J.
Qed.

Lemma implode_explode_round_trip_witness :
  exists pieces,
    explode (lit "a=b==c=") (lit "=") = Returns pieces /\
    implode pieces (lit "=") = lit "a=b==c=".
Proof.
  apply (implode_explode_round_trip (lit "a=b==c=") (lit "=")).
  - discriminate.
  - reflexivity.
Defined.

(** X4: [implode] joins what is left of the sequence once the empty strings
    it starts with are dropped: no delimiter is written for them. *)
Theorem implode_skips_leading_empty :
  forall (v : list std_string) (d : std_string),
    implode v d = join_spec d (drop_leading_empty v).
Proof.
  intros v d. induction v as [|s v IH].
  - reflexivity.
  - destruct s as [|c s].
    + rewrite implode_empty_head. exact IH.
    + apply implode_nonempty_head. discriminate.
Qed.

End MoreExplode.

Section MoreReplace.

Import Utility.

Implicit Types d s search repl subject : std_string.
Implicit Types pieces : list std_string.

(** With a non-empty [search], [replace] returns the pieces [search] cuts
    the subject into, joined by the replacement. *)
Lemma replace_join_pieces search repl subject :
  search <> [] ->
  exists pieces,
    Split search subject pieces /\
    replace search repl subject = Returns (join_spec repl pieces).
Proof.
  intros Hs.
  destruct (replace_loop_fuel search repl Hs (length subject) subject 0)
    as (r & HR & Hrun); [lia | lia |].
  rewrite skipn_O in HR. simpl in Hrun.
  destruct (explode_Split subject search Hs) as (pieces & _ & HS).
  exists pieces. split; [exact HS|].
  rewrite replace_nonempty_search by exact Hs. rewrite Hrun.
  rewrite (ReplacedAll_functional search repl subject r (join_spec repl pieces) HR
             (ReplacedAll_join search repl subject pieces HS)).
  reflexivity.
Qed.

(** X5: replacing a string by itself returns the subject as it was. *)
Theorem replace_same_is_identity :
  forall search subject : std_string,
    replace search search subject = Returns subject.
Proof.
  intros search subject. destruct search as [|c search]; [reflexivity|].
  destruct (replace_join_pieces (c :: search) (c :: search) subject)
    as (pieces & HS & HR); [discriminate|].
  rewrite HR, (Split_join (c :: search) subject pieces HS). reflexivity.
Qed.

(** X6: a subject in which [search] does not occur is returned as it was,
    whatever the replacement. *)
Theorem replace_absent_unchanged :
  forall search repl subject : std_string,
    ~ occurs search subject ->
    replace search repl subject = Returns subject.
Proof.
  intros search repl subject Hn.
  destruct search as [|c search]; [reflexivity|].
  destruct (replace_join_pieces (c :: search) repl subject)
    as (pieces & HS & HR); [discriminate|].
  rewrite HR.
  rewrite (Split_functional (c :: search) subject pieces [subject] HS
             (Split_last (c :: search) subject Hn)).
  reflexivity.
Qed.

Lemma replace_absent_unchanged_witness :
  replace (lit "xyz") (lit "!") (lit "banana") = Returns (lit "banana").
Proof.
  apply (replace_absent_unchanged (lit "xyz") (lit "!") (lit "banana")).
  apply find_None_occurs. reflexivity.
Defined.

(** X7: with a non-empty [search], if [explode] cuts the subject into [n + 1]
    pieces then [replace] made [n] replacements: the result is longer than
    the subject by [n] replacements and shorter by [n] search strings. *)
Theorem replace_length :
  forall search repl subject : std_string,
    search <> [] ->
    exists r pieces,
      replace search repl subject = Returns r /\
      explode subject search = Returns pieces /\
      length r + (length pieces - 1) * length search
      = length subject + (length pieces - 1) * length repl.
Proof.
  intros search repl subject Hs.
  destruct (replace_join_pieces search repl subject Hs) as (pieces & HS & HR).
  destruct (explode_Split subject search Hs) as (pieces' & HE & HS').
  rewrite (Split_functional search subject pieces' pieces HS' HS) in HE.
  exists (join_spec repl pieces), pieces. repeat split; [exact HR | exact HE |].
  pose proof (Split_nonempty search subject pieces HS) as Hne.
  pose proof (length_join_spec repl pieces Hne) as L1.
  pose proof (length_join_spec search pieces Hne) as L2.
  rewrite (Split_join search subject pieces HS) in L2.
  destruct pieces as [|p pieces]; [contradiction|].
  change (length (p :: pieces)) with (S (length pieces)) in *.
  replace (S (length pieces) - 1) with (length pieces) by lia. nia.
Qed.

Lemma replace_length_witness :
  exists r pieces,
    replace (lit "an") (lit "<AN>") (lit "banana") = Returns r /\
    explode (lit "banana") (lit "an") = Returns pieces /\
    length r + (length pieces - 1) * length (lit "an")
    = length (lit "banana") + (length pieces - 1) * length (lit "<AN>").
Proof.
  apply (replace_length (lit "an") (lit "<AN>") (lit "banana")). discriminate.
Defined.

(** X8: for a count from 0 to [INT_MAX], [repeat] returns [n] copies of [s]
    one after the other, [n * s.length()] characters. *)
Theorem repeat_returns_copies :
  forall (s : std_string) (n : Z),
    (0 <= n <= INT_MAX)%Z ->
    exists r,
      repeat s n = Returns r /\
      r = concat (List.repeat s (Z.to_nat n)) /\
      length r = Z.to_nat n * length s.
Proof.
  intros s n Hn. exists (concat (List.repeat s (Z.to_nat n))).
  repeat split; [apply repeat_counts, Hn|].
  induction (Z.to_nat n) as [|k IH]; [reflexivity|].
  simpl. rewrite length_app, IH. reflexivity.
Qed.

Lemma repeat_returns_copies_witness :
  exists r,
    repeat (lit "ab") 3 = Returns r /\
    r = concat (List.repeat (lit "ab") (Z.to_nat 3)) /\
    length r = Z.to_nat 3 * length (lit "ab").
Proof.
  apply (repeat_returns_copies (lit "ab") 3). unfold INT_MAX. lia.
Defined.

End MoreReplace.

Section MoreTrim.

Import Utility.

Implicit Types s t pre post : std_string.

Lemma find_if_nongraph s :
  Forall (fun c => isgraph c = false) (firstn (find_if isgraph s) s).
Proof.
  induction s as [|c s IH]; simpl; [constructor|].
  destruct (isgraph c) eqn:E; simpl; constructor; assumption.
Qed.

Lemma ltrim_app_nongraph pre s :
  Forall (fun c => isgraph c = false) pre -> ltrim (pre ++ s) = ltrim s.
Proof.
  intros H. rewrite !ltrim_skipn.
  induction H as [|c pre Hc _ IH]; simpl; [reflexivity|].
  rewrite Hc. exact IH.
Qed.

Lemma ltrim_all_nongraph s :
  Forall (fun c => isgraph c = false) s -> ltrim s = [].
Proof.
  intros H. rewrite <- (app_nil_r s). rewrite ltrim_app_nongraph by exact H.
  reflexivity.
Qed.

Lemma rtrim_app_nongraph s post :
  Forall (fun c => isgraph c = false) post -> rtrim (s ++ post) = rtrim s.
Proof.
  intros H. rewrite !rtrim_rev, rev_app_distr.
  rewrite ltrim_app_nongraph; [reflexivity|].
  apply Forall_rev, H.
Qed.

Lemma ends_graph_snoc s :
  ends_graph s <-> s = [] \/ exists t c, s = t ++ [c] /\ isgraph c = true.
Proof.
  unfold ends_graph. split.
  - intros [H|(c & t & H & Hc)].
    + left. rewrite <- (rev_involutive s), H. reflexivity.
    + right. exists (rev t), c. split; [|exact Hc].
      rewrite <- (rev_involutive s), H. reflexivity.
  - intros [->|(t & c & -> & Hc)].
    + left. reflexivity.
    + right. exists c, (rev t). split; [|exact Hc].
      rewrite rev_app_distr. reflexivity.
Qed.

Lemma ltrim_decomp s :
  exists pre,
    s = pre ++ ltrim s /\
    Forall (fun c => isgraph c = false) pre /\
    (ltrim s = [] \/ exists c t, ltrim s = c :: t /\ isgraph c = true).
Proof.
  exists (firstn (find_if isgraph s) s). repeat split.
  - rewrite ltrim_skipn. symmetry. apply firstn_skipn.
  - apply find_if_nongraph.
  - apply ltrim_head.
Qed.

Lemma rtrim_decomp s :
  exists post,
    s = rtrim s ++ post /\
    Forall (fun c => isgraph c = false) post /\
    (rtrim s = [] \/ exists t c, rtrim s = t ++ [c] /\ isgraph c = true).
Proof.
  destruct (ltrim_decomp (rev s)) as (pre & E & Hpre & _).
  exists (rev pre). repeat split.
  - rewrite rtrim_rev, <- rev_app_distr, <- E. symmetry. apply rev_involutive.
  - apply Forall_rev, Hpre.
  - apply ends_graph_snoc, rtrim_ends_graph.
Qed.

Lemma trim_decomp s :
  exists pre post,
    s = pre ++ trim s ++ post /\
    Forall (fun c => isgraph c = false) pre /\
    Forall (fun c => isgraph c = false) post /\
    (trim s = [] \/
     (exists c t, trim s = c :: t /\ isgraph c = true) /\
     (exists t c, trim s = t ++ [c] /\ isgraph c = true)).
Proof.
  destruct (rtrim_decomp s) as (post & Es & Hpost & _).
  destruct (ltrim_decomp (rtrim s)) as (pre & Er & Hpre & Hh).
  exists pre, post. unfold trim. repeat split.
  - rewrite app_assoc, <- Er. exact Es.
  - exact Hpre.
  - exact Hpost.
  - destruct Hh as [Hh|Hh]; [left; exact Hh|].
    pose proof (ltrim_keeps_end (rtrim s) (rtrim_ends_graph s)) as He.
    apply ends_graph_snoc in He. destruct He as [He|He]; [left; exact He|].
    right. split; assumption.
Qed.

(** X9: [ltrim] removes the longest prefix without a graphic character and
    nothing else: what is left is empty or starts with a graphic
    character. *)
Theorem ltrim_spec :
  forall s : std_string,
    exists pre,
      s = pre ++ ltrim s /\
      Forall (fun c => isgraph c = false) pre /\
      (ltrim s = [] \/ exists c t, ltrim s = c :: t /\ isgraph c = true).
Proof.
  intros s. exists (firstn (find_if isgraph s) s). split; [|split].
  - rewrite ltrim_skipn, firstn_skipn. reflexivity.
  - apply find_if_nongraph.
  - destruct (ltrim_head s) as [E|E]; [left | right]; exact E.
Qed.

(** X10: [rtrim] removes the longest suffix without a graphic character and
    nothing else: what is left is empty or ends with a graphic character. *)
Theorem rtrim_spec :
  forall s : std_string,
    exists post,
      s = rtrim s ++ post /\
      Forall (fun c => isgraph c = false) post /\
      (rtrim s = [] \/ exists t c, rtrim s = t ++ [c] /\ isgraph c = true).
Proof.
  intros s.
  destruct (ltrim_decomp (rev s)) as (pre & E & Hpre & _).
  exists (rev pre). split; [|split].
  - apply (f_equal (@rev ascii)) in E.
    rewrite rev_involutive, rev_app_distr, <- rtrim_rev in E. exact E.
  - apply Forall_rev, Hpre.
  - apply ends_graph_snoc, rtrim_ends_graph.
Qed.

(** X11: [trim] removes a prefix and a suffix without graphic characters and
    leaves the part between them, which is empty or starts and ends with a
    graphic character. *)
Theorem trim_spec :
  forall s : std_string,
    exists pre post,
      s = pre ++ trim s ++ post /\
      Forall (fun c => isgraph c = false) pre /\
      Forall (fun c => isgraph c = false) post /\
      (trim s = [] \/
       (exists c t, trim s = c :: t /\ isgraph c = true) /\
       (exists t c, trim s = t ++ [c] /\ isgraph c = true)).
Proof.
  intros s.
  destruct (rtrim_decomp s) as (post & Es & Hpost & _).
  destruct (ltrim_decomp (rtrim s)) as (pre & Er & Hpre & Hhead).
  exists pre, post. fold (trim s) in Er, Hhead.
  split; [|split; [exact Hpre | split; [exact Hpost|]]].
  - rewrite Es at 1. rewrite Er at 1. rewrite <- app_assoc. reflexivity.
  - destruct Hhead as [Hnil|Hhead]; [left; exact Hnil|].
    assert (He : ends_graph (trim s))
      by (apply ltrim_keeps_end, rtrim_ends_graph).
    apply ends_graph_snoc in He.
    destruct He as [Hnil|Hend]; [left; exact Hnil|].
    right. split; [exact Hhead | exact Hend].
Qed.

(** X12: trimming the two ends in the other order gives the same string. *)
Theorem ltrim_rtrim_commute :
  forall s : std_string, rtrim (ltrim s) = ltrim (rtrim s).
Proof.
  intros s.
  destruct (trim_decomp s) as (pre & post & E & Hpre & Hpost & Hm).
  fold (trim s). rewrite E at 1.
  rewrite ltrim_app_nongraph by exact Hpre.
  destruct Hm as [Hm|[(c & t & Hc & Gc) Hend]].
  - rewrite Hm. simpl. rewrite ltrim_all_nongraph by exact Hpost. reflexivity.
  - rewrite Hc at 1. simpl. rewrite ltrim_graph_head by exact Gc.
    change (c :: t ++ post) with ((c :: t) ++ post). rewrite <- Hc.
    rewrite rtrim_app_nongraph by exact Hpost.
    apply rtrim_ends_graph_fix, ends_graph_snoc. right. exact Hend.
Qed.

(** X13: [trim] returns the empty string exactly for the strings without a
    graphic character. *)
Theorem trim_empty_iff :
  forall s : std_string,
    trim s = [] <-> Forall (fun c => isgraph c = false) s.
Proof.
  intros s. split.
  - intros Ht.
    destruct (trim_decomp s) as (pre & post & E & Hpre & Hpost & _).
    rewrite E, Ht. simpl. apply Forall_app. split; assumption.
  - intros H. unfold trim. apply ltrim_all_nongraph.
    destruct (rtrim_decomp s) as (post & E & _ & _).
    rewrite E in H. apply Forall_app in H. exact (proj1 H).
Qed.

Lemma isgraph_tolower c : isgraph (tolower c) = isgraph c.
Proof.
  destruct c as [b0 b1 b2 b3 b4 b5 b6 b7].
  destruct b0, b1, b2, b3, b4, b5, b6, b7; reflexivity.
Qed.




Lemma find_if_strtolower s :
  find_if isgraph (strtolower s) = find_if isgraph s.
Proof.
  unfold strtolower. induction s as [|c s IH]; simpl; [reflexivity|].
  rewrite isgraph_tolower, IH. reflexivity.
Qed.

Lemma ltrim_strtolower s : ltrim (strtolower s) = strtolower (ltrim s).
Proof.
  rewrite !ltrim_skipn, find_if_strtolower. unfold strtolower.
  apply skipn_map.
Qed.

Lemma rtrim_strtolower s : rtrim (strtolower s) = strtolower (rtrim s).
Proof.
  rewrite !rtrim_rev. unfold strtolower.
  rewrite <- map_rev. fold (strtolower (rev s)).
  rewrite ltrim_strtolower. unfold strtolower. symmetry. apply map_rev.
Qed.

(** X14: trimming and lower-casing can be done in either order. *)
Theorem trim_strtolower_commute :
  forall s : std_string, trim (strtolower s) = strtolower (trim s).
Proof.
  intros s. unfold trim.
  rewrite rtrim_strtolower, ltrim_strtolower. reflexivity.
Qed.


End MoreTrim.

Section MoreParseAddr.

Import Utility.

Lemma c_str_nul (s t : std_string) :
  Forall (fun c => Ascii.eqb c zero = false) s ->
  c_str (s ++ zero :: t) = s /\ c_str s = s.
Proof.
  intros H. induction H as [|c s Hc _ [IH1 IH2]]; simpl.
  - split; reflexivity.
  - rewrite Hc, IH1, IH2. split; reflexivity.
Qed.

(** X16: [parse_addr] hands the resolver [addr.c_str()], so what follows a
    NUL character in [addr] plays no part: the outcome is that of the text
    before it. *)
Theorem parse_addr_nul_truncation :
  forall (getaddrinfo : resolver) (s t : std_string),
    Forall (fun c => Ascii.eqb c zero = false) s ->
    parse_addr getaddrinfo (s ++ zero :: t) = parse_addr getaddrinfo s.
Proof.
  intros getaddrinfo s t H. unfold parse_addr.
  destruct (c_str_nul s t H) as [-> ->]. reflexivity.
Qed.

Lemma parse_addr_nul_truncation_witness :
  parse_addr loopback_resolver (lit "127.0.0.1" ++ zero :: lit ".example.com")
  = parse_addr loopback_resolver (lit "127.0.0.1").
Proof.
  apply (parse_addr_nul_truncation loopback_resolver
           (lit "127.0.0.1") (lit ".example.com")).
  repeat constructor.
Defined.

End MoreParseAddr.
